(** * b3-decomp: the polygon soup and the collision KD-tree

    A shallow embedding of [src/b3/CGtPolygonSoup.cpp] and of the query
    interface of [src/b3/CGtCollisionKDTree.cpp].

    - [CGtPolygonSoup::FixUp] is C++ source.  It is embedded over a word
      addressed 32-bit memory: the object lives at address [this] and its
      two pointer members are the first two words of the object (the
      decompiler listing kept at the end of the source file writes them as
      [a1[0]] and [a1[1]] of an [int32_t *a1]).
    - The members of [CGtCollisionKDTree] are [INCLUDE_ASM] stubs: the
      source records their signatures only.  Their behaviour is modelled
      from the design document, and every definition that does so says it.
      Coordinates are exact rationals; the polygon-level intersection
      routines, which the document leaves open, are parameters.

    The file has two parts: the definitions, then the theorems. *)

From Stdlib Require Import ZArith QArith Lqa List Bool Lia.
From stdpp Require Import base gmap list.
Import ListNotations.

(* ================================================================= *)
(** * Part I: definitions *)
(* ================================================================= *)

(** ** 32-bit unsigned arithmetic *)

Module U32.

Local Open Scope Z_scope.

Definition modulus : Z := 2 ^ 32.

(** [(uint32_t)x] *)
Definition cast (x : Z) : Z := x mod modulus.

(** [a + b] on two [uint32_t] operands *)
Definition add (a b : Z) : Z := (a + b) mod modulus.

Definition in_range (x : Z) : Prop := 0 <= x < modulus.

End U32.

(** ** CGtPolygonSoup *)

Module CGtPolygonSoup.

Local Open Scope Z_scope.

(** Memory holds 32-bit words and is keyed by the address of the word.
    A location that was never written reads as [0]. *)
Definition load (m : gmap Z Z) (a : Z) : Z := default 0 (m !! a).

Definition store (m : gmap Z Z) (a v : Z) : gmap Z Z := <[a := v]> m.

(** Addresses of the two members of the object at [this]. *)
Definition addr_m_pMember1 (this : Z) : Z := this.

Definition addr_m_pMember2 (this : Z) : Z := this + 4.

Definition m_pMember1 (this : Z) (m : gmap Z Z) : Z :=
  load m (addr_m_pMember1 this).

Definition m_pMember2 (this : Z) (m : gmap Z Z) : Z :=
  load m (addr_m_pMember2 this).

(** [void CGtPolygonSoup::FixUp()]: two assignments in sequence; the second
    reads the memory that the first has left.  The function returns
    nothing, so the embedding returns the memory alone. *)
Definition FixUp (this : Z) (m : gmap Z Z) : gmap Z Z :=
  let m1 := store m (addr_m_pMember1 this)
              (U32.add (U32.cast this) (U32.cast (m_pMember1 this m))) in
  store m1 (addr_m_pMember2 this)
    (U32.add (U32.cast this) (U32.cast (m_pMember2 this m1))).

(** The blob convention: [field] is the 32-bit offset of the block at
    address [target], relative to the object at [this]. *)
Definition holds_offset (this target field : Z) : Prop :=
  field = U32.cast (target - this).

End CGtPolygonSoup.

(** A soup blob as it sits in memory after loading: the object at
    address [0x100000], its first member holding the offset [+32], its
    second the offset [-16] (as a 32-bit word), followed by a word that is
    not a member. *)

Module SoupBlob.

Local Open Scope Z_scope.

Definition base : Z := 1048576.

Definition image : gmap Z Z :=
  <[base := 32]> (<[base + 4 := 4294967280]> (<[base + 8 := 7]> ∅)).

End SoupBlob.

(** The same blob loaded at another address, [0x200000]. *)

Module MovedBlob.

Local Open Scope Z_scope.

Definition base : Z := 2097152.

Definition image : gmap Z Z :=
  <[base := 32]> (<[base + 4 := 4294967280]> (<[base + 8 := 7]> ∅)).

End MovedBlob.

(** ** The decompiler listing of FixUp

    After the C++ function the source file keeps the listing that the
    function was written to match:
    [void CGtPolygonSoup__FixUp(int32_t *a1)] with the body
    [*a1 += (int32_t)a1; a1[1] += (int32_t)a1;].
    It works on signed 32-bit integers.  A signed addition that leaves the
    range wraps around in two's complement, as the addition of the target
    machine does. *)

Module SoupListing.

Local Open Scope Z_scope.

(** [(int32_t)x]: the signed reading of the low 32 bits. *)
Definition to_int32 (x : Z) : Z :=
  let u := U32.cast x in if u <? 2 ^ 31 then u else u - U32.modulus.

(** Reading and writing an [int32_t] through a pointer. *)
Definition load_int32 (m : gmap Z Z) (a : Z) : Z :=
  to_int32 (CGtPolygonSoup.load m a).

Definition store_int32 (m : gmap Z Z) (a v : Z) : gmap Z Z :=
  CGtPolygonSoup.store m a (U32.cast v).

(** The listing: [a1[0]] is the word at [a1], [a1[1]] the word at
    [a1 + 4]. *)
Definition CGtPolygonSoup__FixUp (a1 : Z) (m : gmap Z Z) : gmap Z Z :=
  let m1 := store_int32 m a1 (to_int32 (load_int32 m a1 + to_int32 a1)) in
  store_int32 m1 (a1 + 4) (to_int32 (load_int32 m1 (a1 + 4) + to_int32 a1)).

End SoupListing.

(** ** Geometry of the queries *)

Local Open Scope Q_scope.

Inductive Axis : Type := AxisX | AxisY | AxisZ.

Record CGtVector : Type := { vx : Q; vy : Q; vz : Q }.

Definition coord (a : Axis) (p : CGtVector) : Q :=
  match a with AxisX => vx p | AxisY => vy p | AxisZ => vz p end.

Record CGtSphere : Type := { sphere_center : CGtVector; sphere_radius : Q }.

Record CGtLine : Type := { line_start : CGtVector; line_end : CGtVector }.

(** The coordinate along [a] of the point of the segment at parameter [t]. *)
Definition line_coord (l : CGtLine) (a : Axis) (t : Q) : Q :=
  coord a (line_start l) + t * (coord a (line_end l) - coord a (line_start l)).

Definition line_point (l : CGtLine) (t : Q) : CGtVector :=
  {| vx := line_coord l AxisX t; vy := line_coord l AxisY t;
     vz := line_coord l AxisZ t |}.

(** What a polygon-level test yields: contact or hit point, surface
    normal, and the penetration depth (sphere) or the parametric hit
    distance (segment). *)
Record Contact : Type :=
  { contact_point : CGtVector; contact_normal : CGtVector;
    contact_distance : Q }.

Record CGtPolygonIntersectionResult : Type :=
  { res_polygon : nat; res_contact : Contact }.

Definition res_distance (r : CGtPolygonIntersectionResult) : Q :=
  contact_distance (res_contact r).

Definition Qltb (x y : Q) : bool := negb (Qle_bool y x).


(** ** CGtCollisionKDTree *)

Module CGtCollisionKDTree.

(** Modelled from the spec: the node layout of the tree, which the source
    does not show.  Split nodes carry the splitting axis, the split
    coordinate and the two children; leaves carry a run of polygon indices
    into the soup. *)
Inductive KDNode : Type :=
| KDLeaf (polys : list nat)
| KDSplit (axis : Axis) (split : Q) (lo hi : KDNode).

(** Modelled from the spec: the tree object, which the source does not
    declare: the root node and the (non-owning) reference to the soup. *)
Record Tree (Polygon : Type) : Type :=
  { kd_root : KDNode; kd_soup : list Polygon }.

Arguments kd_root {Polygon} _.
Arguments kd_soup {Polygon} _.

(** The callback, a pointer to a function from a
    [const CGtPolygonIntersectionResult&] and a [void*] to [bool], with the opaque
    user context passed as state: the callback answers continue ([true]) or
    stop ([false]) and may change the context. *)
Definition Callback (Ctx : Type) : Type :=
  CGtPolygonIntersectionResult -> Ctx -> bool * Ctx.

(** A callback instrumented to record, in order, each result it is
    invoked with and its answer. *)
Definition logged {Ctx : Type} (cb : Callback Ctx)
  : Callback (Ctx * list (CGtPolygonIntersectionResult * bool)) :=
  fun r st =>
    let '(go, ctx') := cb r (fst st) in (go, (ctx', snd st ++ [(r, go)])).

Section Queries.

Context {Polygon : Type}.

(** The closed-form polygon tests.  The geometry routines are outside the
    two source files and the design document does not define them, so they
    are parameters of the model. *)
Variable sphere_polygon : CGtSphere -> Polygon -> option Contact.
Variable line_polygon : CGtLine -> Polygon -> option Contact.

(** The test of the polygon that index [i] refers to; an index outside the
    soup refers to nothing. *)
Definition polygon_result (test : Polygon -> option Contact)
    (soup : list Polygon) (i : nat) : option CGtPolygonIntersectionResult :=
  match soup !! i with
  | Some P =>
      match test P with
      | Some c => Some {| res_polygon := i; res_contact := c |}
      | None => None
      end
  | None => None
  end.

(** Modelled from the spec: the leaf step of the callback queries (tests
    every referenced polygon, invokes the callback for each overlap, stops
    at once when the callback answers stop). *)
Fixpoint visit_leaf {Ctx : Type} (test : Polygon -> option Contact)
    (soup : list Polygon) (polys : list nat) (cb : Callback Ctx) (ctx : Ctx)
  : bool * Ctx :=
  match polys with
  | [] => (true, ctx)
  | i :: rest =>
      match polygon_result test soup i with
      | Some r =>
          let '(go, ctx') := cb r ctx in
          if go then visit_leaf test soup rest cb ctx' else (false, ctx')
      | None => visit_leaf test soup rest cb ctx
      end
  end.

(** Modelled from the spec: the recursive descent shared by
    [IntersectSphere] and [IntersectLine].  [enter_lo a k] and
    [enter_hi a k] decide whether the child below, respectively above, the
    plane [a = k] is visited. *)
Fixpoint visit_node {Ctx : Type} (enter_lo enter_hi : Axis -> Q -> bool)
    (test : Polygon -> option Contact) (soup : list Polygon) (n : KDNode)
    (cb : Callback Ctx) (ctx : Ctx) : bool * Ctx :=
  match n with
  | KDLeaf polys => visit_leaf test soup polys cb ctx
  | KDSplit a k lo hi =>
      let '(go, ctx1) :=
        if enter_lo a k
        then visit_node enter_lo enter_hi test soup lo cb ctx
        else (true, ctx) in
      if go then
        if enter_hi a k
        then visit_node enter_lo enter_hi test soup hi cb ctx1
        else (true, ctx1)
      else (false, ctx1)
  end.

(** Modelled from the spec: a child is skipped when the signed distance of
    the sphere's centre to the split plane exceeds the radius on the
    excluding side. *)
Definition sphere_enter_lo (s : CGtSphere) (a : Axis) (k : Q) : bool :=
  negb (Qltb (sphere_radius s) (coord a (sphere_center s) - k)).

(** Modelled from the spec: the same test for the child above the plane. *)
Definition sphere_enter_hi (s : CGtSphere) (a : Axis) (k : Q) : bool :=
  negb (Qltb (sphere_radius s) (k - coord a (sphere_center s))).

(** Modelled from the spec: [CGtCollisionKDTree::IntersectSphere], absent
    from the source.  No result besides the effect of the callback on the
    context. *)
Definition IntersectSphere {Ctx : Type} (t : Tree Polygon) (s : CGtSphere)
    (cb : Callback Ctx) (ctx : Ctx) : Ctx :=
  snd (visit_node (sphere_enter_lo s) (sphere_enter_hi s) (sphere_polygon s)
         (kd_soup t) (kd_root t) cb ctx).

(** Modelled from the spec: a child is visited when the segment can cross
    its half-space (segment against the split coordinate). *)
Definition line_enter_lo (l : CGtLine) (a : Axis) (k : Q) : bool :=
  Qle_bool (coord a (line_start l)) k || Qle_bool (coord a (line_end l)) k.

(** Modelled from the spec: the same test for the child above the plane. *)
Definition line_enter_hi (l : CGtLine) (a : Axis) (k : Q) : bool :=
  Qle_bool k (coord a (line_start l)) || Qle_bool k (coord a (line_end l)).

(** Modelled from the spec: [CGtCollisionKDTree::IntersectLine], absent
    from the source. *)
Definition IntersectLine {Ctx : Type} (t : Tree Polygon) (l : CGtLine)
    (cb : Callback Ctx) (ctx : Ctx) : Ctx :=
  snd (visit_node (line_enter_lo l) (line_enter_hi l) (line_polygon l)
         (kd_soup t) (kd_root t) cb ctx).

(** The invocations of the callback during a query: each result delivered
    and the answer given, in order. *)
Definition IntersectSphere_calls {Ctx : Type} (t : Tree Polygon)
    (s : CGtSphere) (cb : Callback Ctx) (ctx : Ctx)
  : list (CGtPolygonIntersectionResult * bool) :=
  snd (IntersectSphere t s (logged cb) (ctx, [])).

Definition IntersectLine_calls {Ctx : Type} (t : Tree Polygon)
    (l : CGtLine) (cb : Callback Ctx) (ctx : Ctx)
  : list (CGtPolygonIntersectionResult * bool) :=
  snd (IntersectLine t l (logged cb) (ctx, [])).

(** *** The candidates of a callback query *)

(** The overlaps found in a leaf, in the order of its polygon run. *)
Fixpoint leaf_hits (test : Polygon -> option Contact) (soup : list Polygon)
    (polys : list nat) : list CGtPolygonIntersectionResult :=
  match polys with
  | [] => []
  | i :: rest =>
      match polygon_result test soup i with
      | Some r => r :: leaf_hits test soup rest
      | None => leaf_hits test soup rest
      end
  end.

(** The overlaps a descent meets when it is never stopped, in traversal
    order. *)
Fixpoint node_hits (enter_lo enter_hi : Axis -> Q -> bool)
    (test : Polygon -> option Contact) (soup : list Polygon) (n : KDNode)
  : list CGtPolygonIntersectionResult :=
  match n with
  | KDLeaf polys => leaf_hits test soup polys
  | KDSplit a k lo hi =>
      (if enter_lo a k then node_hits enter_lo enter_hi test soup lo else [])
      ++ (if enter_hi a k then node_hits enter_lo enter_hi test soup hi else [])
  end.

(** Handing a sequence of results to the callback until it answers stop. *)
Fixpoint deliver {Ctx : Type} (cb : Callback Ctx) (ctx : Ctx)
    (hits : list CGtPolygonIntersectionResult) : bool * Ctx :=
  match hits with
  | [] => (true, ctx)
  | r :: rest =>
      let '(go, ctx') := cb r ctx in
      if go then deliver cb ctx' rest else (false, ctx')
  end.

(** The invocations that [deliver] makes. *)
Fixpoint calls_of {Ctx : Type} (cb : Callback Ctx) (ctx : Ctx)
    (hits : list CGtPolygonIntersectionResult)
  : list (CGtPolygonIntersectionResult * bool) :=
  match hits with
  | [] => []
  | r :: rest =>
      let '(go, ctx') := cb r ctx in
      (r, go) :: (if go then calls_of cb ctx' rest else [])
  end.

(** *** The nearest-hit query *)

(** Modelled from the spec: the running best distance of the search.  The
    state of the search is the found flag with the content of the output
    slot; before any hit the whole segment, up to parameter [1], is
    searched. *)
Definition nearest_limit (st : bool * CGtPolygonIntersectionResult) : Q :=
  if fst st then res_distance (snd st) else 1.

(** Modelled from the spec: a hit replaces the best one when it is
    strictly closer (or when there is none yet). *)
Definition nearest_update (st : bool * CGtPolygonIntersectionResult)
    (r : CGtPolygonIntersectionResult) : bool * CGtPolygonIntersectionResult :=
  if negb (fst st) || Qltb (res_distance r) (res_distance (snd st))
  then (true, r) else st.

(** Modelled from the spec: the leaf step of the nearest-hit query (tests
    every referenced polygon against the segment and keeps the closest). *)
Fixpoint nearest_leaf (l : CGtLine) (soup : list Polygon) (polys : list nat)
    (st : bool * CGtPolygonIntersectionResult)
  : bool * CGtPolygonIntersectionResult :=
  match polys with
  | [] => st
  | i :: rest =>
      nearest_leaf l soup rest
        match polygon_result (line_polygon l) soup i with
        | Some r => nearest_update st r
        | None => st
        end
  end.

(** Modelled from the spec: a subtree is pruned when its half-space lies
    entirely beyond the best distance along the segment, that is when the
    segment cut at the best distance does not reach it. *)
Definition nearest_enter_lo (l : CGtLine)
    (st : bool * CGtPolygonIntersectionResult) (a : Axis) (k : Q) : bool :=
  Qle_bool (coord a (line_start l)) k
  || Qle_bool (line_coord l a (nearest_limit st)) k.

(** Modelled from the spec: the same test for the child above the plane. *)
Definition nearest_enter_hi (l : CGtLine)
    (st : bool * CGtPolygonIntersectionResult) (a : Axis) (k : Q) : bool :=
  Qle_bool k (coord a (line_start l))
  || Qle_bool k (line_coord l a (nearest_limit st)).

(** Modelled from the spec: the tightening descent; the child on the side
    of the segment's start is searched first. *)
Fixpoint nearest_node (l : CGtLine) (soup : list Polygon) (n : KDNode)
    (st : bool * CGtPolygonIntersectionResult)
  : bool * CGtPolygonIntersectionResult :=
  match n with
  | KDLeaf polys => nearest_leaf l soup polys st
  | KDSplit a k lo hi =>
      let go_lo st :=
        if nearest_enter_lo l st a k then nearest_node l soup lo st else st in
      let go_hi st :=
        if nearest_enter_hi l st a k then nearest_node l soup hi st else st in
      if Qle_bool (coord a (line_start l)) k
      then go_hi (go_lo st) else go_lo (go_hi st)
  end.

(** Modelled from the spec: [CGtCollisionKDTree::IntersectLineNearest],
    absent from the source.  [out] is the content of the caller's slot
    before the call; the result is the found flag and the slot after it. *)
Definition IntersectLineNearest (t : Tree Polygon) (l : CGtLine)
    (out : CGtPolygonIntersectionResult)
  : bool * CGtPolygonIntersectionResult :=
  nearest_node l (kd_soup t) (kd_root t) (false, out).

(** *** Reference notions the claims are stated against *)

(** Polygon [i] of the soup intersects the query shape, with contact [c],
    by the closed-form test. *)
Definition intersects (test : Polygon -> option Contact)
    (soup : list Polygon) (i : nat) (c : Contact) : Prop :=
  exists P, soup !! i = Some P /\ test P = Some c.

(** *** The steps of the nearest-hit search *)

(** The slot holds a genuine hit of the segment. *)
Definition genuine (l : CGtLine) (soup : list Polygon)
    (r : CGtPolygonIntersectionResult) : Prop :=
  intersects (line_polygon l) soup (res_polygon r) (res_contact r).

(** A step of the search never loosens the best distance, and whatever it
    writes to the slot is a genuine hit. *)
Definition tightens (l : CGtLine) (soup : list Polygon)
    (st st' : bool * CGtPolygonIntersectionResult) : Prop :=
  (fst st = true ->
   fst st' = true /\ res_distance (snd st') <= res_distance (snd st))
  /\ (st' = st \/ (fst st' = true /\ genuine l soup (snd st'))).

(** The best hit is at least as close as distance [d]. *)
Definition within (st : bool * CGtPolygonIntersectionResult) (d : Q) : Prop :=
  fst st = true /\ res_distance (snd st) <= d.

(** The points of a polygon (a parameter, like the tests). *)
Variable on_polygon : Polygon -> CGtVector -> Prop.

(** Modelled from the spec: index [i] is referenced by every leaf whose
    cell contains the point [x]. *)
Fixpoint indexed_at (n : KDNode) (x : CGtVector) (i : nat) : Prop :=
  match n with
  | KDLeaf polys => In i polys
  | KDSplit a k lo hi =>
      (coord a x <= k -> indexed_at lo x i)
      /\ (k <= coord a x -> indexed_at hi x i)
  end.

(** Modelled from the spec: the invariant of the data model.  The tree
    covers the full polygon set of the soup, each polygon being indexed
    wherever it lies. *)
Definition tree_indexes (t : Tree Polygon) : Prop :=
  forall i P x,
    kd_soup t !! i = Some P -> on_polygon P x -> indexed_at (kd_root t) x i.

(** What the closed-form tests promise about a contact: it is a point of
    the polygon; a sphere contact is within the radius of the centre along
    every axis; a segment hit is the point of the segment at its
    parametric distance, which lies in [0,1]. *)
Definition sphere_polygon_sound : Prop :=
  forall s P c, sphere_polygon s P = Some c ->
    on_polygon P (contact_point c)
    /\ forall a,
         coord a (sphere_center s) - sphere_radius s <= coord a (contact_point c)
         /\ coord a (contact_point c) <= coord a (sphere_center s) + sphere_radius s.

Definition line_polygon_sound : Prop :=
  forall l P c, line_polygon l P = Some c ->
    on_polygon P (contact_point c)
    /\ 0 <= contact_distance c <= 1
    /\ forall a, coord a (contact_point c) == line_coord l a (contact_distance c).

(** *** Geometric overlap, stated on the points of the polygon *)






End Queries.

End CGtCollisionKDTree.

(** ** A concrete geometry: flat quads

    The scenario of the design document is a flat quad at constant [z]
    spanning a rectangle in [x] and [y].  This instance of the polygon
    tests serves to run the queries on concrete trees; it is not part of
    the source. *)

Module FlatQuad.

Record Quad : Type :=
  { quad_x0 : Q; quad_x1 : Q; quad_y0 : Q; quad_y1 : Q; quad_z : Q }.

(** An inverted rectangle is malformed and intersects nothing. *)
Definition quad_valid (q : Quad) : bool :=
  Qle_bool (quad_x0 q) (quad_x1 q) && Qle_bool (quad_y0 q) (quad_y1 q).

Definition on_quad (q : Quad) (p : CGtVector) : Prop :=
  (quad_x0 q <= vx p /\ vx p <= quad_x1 q)
  /\ (quad_y0 q <= vy p /\ vy p <= quad_y1 q)
  /\ vz p == quad_z q.

Definition clamp (lo hi v : Q) : Q :=
  if Qle_bool v lo then lo else if Qle_bool hi v then hi else v.

Definition sqr (x : Q) : Q := x * x.

(** The closest point of the quad to the centre, accepted when its squared
    distance is at most the squared radius.  The depth is reported as the
    difference of the squares, which stays rational. *)
Definition sphere_quad (s : CGtSphere) (q : Quad) : option Contact :=
  let c := sphere_center s in
  let r := sphere_radius s in
  if quad_valid q && Qle_bool 0 r then
    let p := {| vx := clamp (quad_x0 q) (quad_x1 q) (vx c);
                vy := clamp (quad_y0 q) (quad_y1 q) (vy c);
                vz := quad_z q |} in
    let d2 := sqr (vx p - vx c) + sqr (vy p - vy c) + sqr (vz p - vz c) in
    if Qle_bool d2 (sqr r)
    then Some {| contact_point := p;
                 contact_normal := {| vx := 0; vy := 0; vz := 1 |};
                 contact_distance := sqr r - d2 |}
    else None
  else None.

(** The crossing of the segment with the plane of the quad, accepted when
    its parameter is in [0,1] and the point is inside the rectangle.  The
    normal faces the start of the segment. *)
Definition line_quad (l : CGtLine) (q : Quad) : option Contact :=
  let dz := vz (line_end l) - vz (line_start l) in
  if quad_valid q && negb (Qeq_bool dz 0) then
    let t := (quad_z q - vz (line_start l)) / dz in
    let p := line_point l t in
    if Qle_bool 0 t && Qle_bool t 1
       && Qle_bool (quad_x0 q) (vx p) && Qle_bool (vx p) (quad_x1 q)
       && Qle_bool (quad_y0 q) (vy p) && Qle_bool (vy p) (quad_y1 q)
    then Some {| contact_point := p;
                 contact_normal :=
                   {| vx := 0; vy := 0; vz := if Qle_bool 0 dz then -1 else 1 |};
                 contact_distance := t |}
    else None
  else None.

(** The quad of the scenario, [z = 0] over [-1,1] x [-1,1], and a second
    one below it at [z = -1]. *)
Definition quad_top : Quad :=
  {| quad_x0 := -1; quad_x1 := 1; quad_y0 := -1; quad_y1 := 1; quad_z := 0 |}.

Definition quad_low : Quad :=
  {| quad_x0 := -1; quad_x1 := 1; quad_y0 := -1; quad_y1 := 1; quad_z := -1 |}.

(** The tree of the scenario: one leaf holding the quad. *)
Definition one_quad : CGtCollisionKDTree.Tree Quad :=
  {| CGtCollisionKDTree.kd_root := CGtCollisionKDTree.KDLeaf [0%nat];
     CGtCollisionKDTree.kd_soup := [quad_top] |}.

(** The sphere of the scenario, centred at [(0,0,1/2)] with radius 1. *)
Definition unit_sphere : CGtSphere :=
  {| sphere_center := {| vx := 0; vy := 0; vz := 1 # 2 |}; sphere_radius := 1 |}.

(** A tree over the two quads, split at [z = -1/2]. *)
Definition two_quads : CGtCollisionKDTree.Tree Quad :=
  {| CGtCollisionKDTree.kd_root :=
       CGtCollisionKDTree.KDSplit AxisZ (-1 # 2)
         (CGtCollisionKDTree.KDLeaf [1%nat])
         (CGtCollisionKDTree.KDLeaf [0%nat]);
     CGtCollisionKDTree.kd_soup := [quad_top; quad_low] |}.

(** The sphere of radius 2 centred at [(0,0,1/2)] overlaps both quads. *)
Definition big_sphere : CGtSphere :=
  {| sphere_center := {| vx := 0; vy := 0; vz := 1 # 2 |}; sphere_radius := 2 |}.

(** The segment of the scenario, from [(0,0,5)] to [(0,0,-5)]. *)
Definition down_line : CGtLine :=
  {| line_start := {| vx := 0; vy := 0; vz := 5 |};
     line_end := {| vx := 0; vy := 0; vz := -5 |} |}.

(** A segment that stays above both quads. *)
Definition high_line : CGtLine :=
  {| line_start := {| vx := 0; vy := 0; vz := 5 |};
     line_end := {| vx := 1; vy := 0; vz := 2 |} |}.

(** A sphere away from both quads. *)
Definition far_sphere : CGtSphere :=
  {| sphere_center := {| vx := 0; vy := 0; vz := 5 |}; sphere_radius := 1 |}.

(** Two callbacks on a counter of invocations: one always continues, one
    always stops. *)
Definition count_all : CGtCollisionKDTree.Callback nat :=
  fun _ n => (true, S n).

Definition stop_at_once : CGtCollisionKDTree.Callback nat :=
  fun _ n => (false, S n).

(** An initial content of the output slot. *)
Definition empty_slot : CGtPolygonIntersectionResult :=
  {| res_polygon := 0%nat;
     res_contact :=
       {| contact_point := {| vx := 0; vy := 0; vz := 0 |};
          contact_normal := {| vx := 0; vy := 0; vz := 0 |};
          contact_distance := 0 |} |}.

(** A third quad at [z = -2], the soup of the three quads, and the tree
    that holds them in a single leaf whose run lists them in a given
    order. *)
Definition quad_deep : Quad :=
  {| quad_x0 := -1; quad_x1 := 1; quad_y0 := -1; quad_y1 := 1; quad_z := -2 |}.

Definition three_quads : list Quad := [quad_top; quad_low; quad_deep].

Definition leaf_of (polys : list nat) : CGtCollisionKDTree.Tree Quad :=
  {| CGtCollisionKDTree.kd_root := CGtCollisionKDTree.KDLeaf polys;
     CGtCollisionKDTree.kd_soup := three_quads |}.

(** The six orders in which a leaf can list the three quads. *)
Definition leaf_orders : list (list nat) :=
  [ [0; 1; 2]; [0; 2; 1]; [1; 0; 2]; [1; 2; 0]; [2; 0; 1]; [2; 1; 0] ]%nat.

(** The segment of the scenario walked the other way, from [(0,0,-5)] to
    [(0,0,5)]. *)
Definition up_line : CGtLine :=
  {| line_start := {| vx := 0; vy := 0; vz := -5 |};
     line_end := {| vx := 0; vy := 0; vz := 5 |} |}.

End FlatQuad.

(* ================================================================= *)
(** * Part II: theorems *)
(* ================================================================= *)

(** ** 32-bit arithmetic *)

Section U32Facts.

Local Open Scope Z_scope.

Lemma U32_modulus_pos : 0 < U32.modulus.
Proof. unfold U32.modulus. lia. Qed.

Lemma U32_cast_range x : U32.in_range (U32.cast x).
Proof. apply Z.mod_pos_bound, U32_modulus_pos. Qed.

Lemma U32_add_range a b : U32.in_range (U32.add a b).
Proof. apply Z.mod_pos_bound, U32_modulus_pos. Qed.

Lemma U32_add_cast a b :
  U32.add (U32.cast a) (U32.cast b) = (a + b) mod U32.modulus.
Proof.
  unfold U32.add, U32.cast.
  symmetry. apply Z.add_mod. pose proof U32_modulus_pos. lia.
Qed.

Lemma U32_resolve this target :
  U32.in_range target ->
  (this + U32.cast (target - this)) mod U32.modulus = target.
Proof.
  intros Ht. unfold U32.cast. rewrite Zplus_mod_idemp_r.
  replace (this + (target - this)) with target by lia.
  now apply Z.mod_small.
Qed.

Lemma U32_add_base_moves this x :
  0 < this < U32.modulus -> U32.in_range x ->
  (this + x) mod U32.modulus <> x.
Proof.
  unfold U32.in_range. intros Hthis Hx Heq.
  destruct (Z_lt_ge_dec (this + x) U32.modulus) as [Hlt | Hge].
  - rewrite Z.mod_small in Heq by lia. lia.
  - replace (this + x) with ((this + x - U32.modulus) + 1 * U32.modulus) in Heq by lia.
    rewrite Z.mod_add in Heq by lia.
    rewrite Z.mod_small in Heq by lia. lia.
Qed.

End U32Facts.

(** ** CGtPolygonSoup::FixUp *)

Section FixUpFacts.

Import CGtPolygonSoup.
Local Open Scope Z_scope.

Lemma load_store_eq (m : gmap Z Z) a v : load (store m a v) a = v.
Proof. unfold load, store. now rewrite lookup_insert_eq. Qed.

Lemma load_store_ne (m : gmap Z Z) a b v :
  a <> b -> load (store m a v) b = load m b.
Proof. intros H. unfold load, store. now rewrite lookup_insert_ne. Qed.

Lemma addr_members_distinct this : addr_m_pMember1 this <> addr_m_pMember2 this.
Proof. unfold addr_m_pMember1, addr_m_pMember2. lia. Qed.

Lemma FixUp_m_pMember1 this m :
  m_pMember1 this (FixUp this m) = (this + m_pMember1 this m) mod U32.modulus.
Proof.
  unfold FixUp, m_pMember1 at 1.
  rewrite load_store_ne by (apply not_eq_sym, addr_members_distinct).
  rewrite load_store_eq. apply U32_add_cast.
Qed.

Lemma FixUp_m_pMember2 this m :
  m_pMember2 this (FixUp this m) = (this + m_pMember2 this m) mod U32.modulus.
Proof.
  unfold FixUp, m_pMember2 at 1. rewrite load_store_eq.
  unfold m_pMember2.
  rewrite load_store_ne by apply addr_members_distinct.
  apply U32_add_cast.
Qed.

Lemma FixUp_members_in_range this m :
  U32.in_range (m_pMember1 this (FixUp this m))
  /\ U32.in_range (m_pMember2 this (FixUp this m)).
Proof.
  rewrite FixUp_m_pMember1, FixUp_m_pMember2.
  split; apply Z.mod_pos_bound, U32_modulus_pos.
Qed.

Lemma FixUp_m_pMember1_target this t1 m :
  U32.in_range t1 -> holds_offset this t1 (m_pMember1 this m) ->
  m_pMember1 this (FixUp this m) = t1.
Proof.
  unfold holds_offset. intros Ht H.
  rewrite FixUp_m_pMember1, H. now apply U32_resolve.
Qed.

Lemma FixUp_m_pMember2_target this t2 m :
  U32.in_range t2 -> holds_offset this t2 (m_pMember2 this m) ->
  m_pMember2 this (FixUp this m) = t2.
Proof.
  unfold holds_offset. intros Ht H.
  rewrite FixUp_m_pMember2, H. now apply U32_resolve.
Qed.

(** C1.  One call of [FixUp] turns each of the two members, stored as the
    32-bit offset of its target block relative to the object's own
    address, into the address of that block: the object's address is added
    to the stored offset and the sum is written back to the same member. *)
Theorem FixUp_resolves_offsets (this t1 t2 : Z) (m : gmap Z Z) :
  U32.in_range t1 -> U32.in_range t2 ->
  holds_offset this t1 (m_pMember1 this m) ->
  holds_offset this t2 (m_pMember2 this m) ->
  m_pMember1 this (FixUp this m)
  = U32.add (U32.cast this) (U32.cast (m_pMember1 this m))
  /\ m_pMember2 this (FixUp this m)
     = U32.add (U32.cast this) (U32.cast (m_pMember2 this m))
  /\ m_pMember1 this (FixUp this m) = t1
  /\ m_pMember2 this (FixUp this m) = t2.
Proof.
  intros Ht1 Ht2 H1 H2.
  split; [rewrite U32_add_cast; apply FixUp_m_pMember1 |].
  split; [rewrite U32_add_cast; apply FixUp_m_pMember2 |].
  split; [now apply FixUp_m_pMember1_target | now apply FixUp_m_pMember2_target].
Qed.

(** C7.  [FixUp] is not idempotent.  For an object at a (non-null, 32-bit)
    address, a second call adds the base address once more to each member:
    the members after two calls differ from the members after one call,
    and no longer hold the addresses of the intended targets. *)
Theorem FixUp_twice_corrupts (this : Z) (m : gmap Z Z) :
  0 < this < U32.modulus ->
  let once := FixUp this m in
  let twice := FixUp this once in
  m_pMember1 this twice = (this + m_pMember1 this once) mod U32.modulus
  /\ m_pMember2 this twice = (this + m_pMember2 this once) mod U32.modulus
  /\ m_pMember1 this twice <> m_pMember1 this once
  /\ m_pMember2 this twice <> m_pMember2 this once
  /\ (forall t1 t2,
        U32.in_range t1 -> U32.in_range t2 ->
        holds_offset this t1 (m_pMember1 this m) ->
        holds_offset this t2 (m_pMember2 this m) ->
        m_pMember1 this twice <> t1 /\ m_pMember2 this twice <> t2).
Proof.
  intros Hthis once twice.
  destruct (FixUp_members_in_range this m) as [R1 R2]. fold once in R1, R2.
  assert (D1 : m_pMember1 this twice <> m_pMember1 this once)
    by (subst twice; rewrite FixUp_m_pMember1; now apply U32_add_base_moves).
  assert (D2 : m_pMember2 this twice <> m_pMember2 this once)
    by (subst twice; rewrite FixUp_m_pMember2; now apply U32_add_base_moves).
  split; [apply FixUp_m_pMember1 |]. split; [apply FixUp_m_pMember2 |].
  split; [exact D1 |]. split; [exact D2 |].
  intros t1 t2 Ht1 Ht2 H1 H2.
  destruct (FixUp_m_pMember1_target this t1 m Ht1 H1).
  destruct (FixUp_m_pMember2_target this t2 m Ht2 H2).
  split; assumption.
Qed.

(** C9.  [FixUp] returns nothing and writes the two members only: every
    other word of memory, inside or outside the object, is as it was. *)
Theorem FixUp_frame (this a : Z) (m : gmap Z Z) :
  a <> addr_m_pMember1 this -> a <> addr_m_pMember2 this ->
  FixUp this m !! a = m !! a.
Proof.
  intros H1 H2. unfold FixUp, store.
  rewrite !lookup_insert_ne by (apply not_eq_sym; assumption). reflexivity.
Qed.

(** C10.  The additions of [FixUp] are 32-bit unsigned: each member
    becomes (base + offset) modulo 2^32, wrapping silently, and the value
    written to [m_pMember2] is a function of the base address and of the
    original [m_pMember2] alone, whatever [m_pMember1] held. *)
Theorem FixUp_wraps_mod_2_32 (this : Z) (m : gmap Z Z) :
  m_pMember1 this (FixUp this m) = (this + m_pMember1 this m) mod 2 ^ 32
  /\ m_pMember2 this (FixUp this m) = (this + m_pMember2 this m) mod 2 ^ 32
  /\ (forall v : Z,
        m_pMember2 this (FixUp this (store m (addr_m_pMember1 this) v))
        = m_pMember2 this (FixUp this m)).
Proof.
  split; [apply FixUp_m_pMember1 |]. split; [apply FixUp_m_pMember2 |].
  intros v. rewrite !FixUp_m_pMember2. unfold m_pMember2.
  rewrite load_store_ne by apply addr_members_distinct. reflexivity.
Qed.

Lemma FixUp_resolves_offsets_witness :
  m_pMember1 SoupBlob.base (FixUp SoupBlob.base SoupBlob.image)
  = U32.add (U32.cast SoupBlob.base)
      (U32.cast (m_pMember1 SoupBlob.base SoupBlob.image))
  /\ m_pMember2 SoupBlob.base (FixUp SoupBlob.base SoupBlob.image)
     = U32.add (U32.cast SoupBlob.base)
         (U32.cast (m_pMember2 SoupBlob.base SoupBlob.image))
  /\ m_pMember1 SoupBlob.base (FixUp SoupBlob.base SoupBlob.image) = SoupBlob.base + 32
  /\ m_pMember2 SoupBlob.base (FixUp SoupBlob.base SoupBlob.image) = SoupBlob.base - 16.
Proof.
  apply (FixUp_resolves_offsets SoupBlob.base (SoupBlob.base + 32)
           (SoupBlob.base - 16) SoupBlob.image).
  - unfold U32.in_range, U32.modulus, SoupBlob.base. lia.
  - unfold U32.in_range, U32.modulus, SoupBlob.base. lia.
  - vm_compute. reflexivity.
  - vm_compute. reflexivity.
Defined.

Lemma FixUp_twice_corrupts_witness :
  let once := FixUp SoupBlob.base SoupBlob.image in
  let twice := FixUp SoupBlob.base once in
  m_pMember1 SoupBlob.base twice <> m_pMember1 SoupBlob.base once
  /\ m_pMember2 SoupBlob.base twice <> m_pMember2 SoupBlob.base once
  /\ m_pMember1 SoupBlob.base twice <> SoupBlob.base + 32
  /\ m_pMember2 SoupBlob.base twice <> SoupBlob.base - 16.
Proof.
  assert (Hbase : 0 < SoupBlob.base < U32.modulus)
    by (unfold U32.modulus, SoupBlob.base; lia).
  destruct (FixUp_twice_corrupts SoupBlob.base SoupBlob.image Hbase)
    as (_ & _ & D1 & D2 & T).
  destruct (T (SoupBlob.base + 32) (SoupBlob.base - 16)) as [T1 T2].
  - unfold U32.in_range, U32.modulus, SoupBlob.base. lia.
  - unfold U32.in_range, U32.modulus, SoupBlob.base. lia.
  - vm_compute. reflexivity.
  - vm_compute. reflexivity.
  - repeat split; assumption.
Defined.

Lemma FixUp_frame_witness :
  FixUp SoupBlob.base SoupBlob.image !! (SoupBlob.base + 8)
  = SoupBlob.image !! (SoupBlob.base + 8).
Proof.
  apply (FixUp_frame SoupBlob.base (SoupBlob.base + 8) SoupBlob.image).
  - unfold addr_m_pMember1, SoupBlob.base. lia.
  - unfold addr_m_pMember2, SoupBlob.base. lia.
Defined.

End FixUpFacts.

(** ** Further properties of CGtPolygonSoup::FixUp *)

Section FixUpMore.

Import CGtPolygonSoup.
Local Open Scope Z_scope.

Lemma FixUp_lookup_other this a (m : gmap Z Z) :
  a <> addr_m_pMember1 this -> a <> addr_m_pMember2 this ->
  FixUp this m !! a = m !! a.
Proof.
  intros H1 H2. unfold FixUp, store.
  rewrite lookup_insert_ne by (apply not_eq_sym; exact H2).
  now rewrite lookup_insert_ne by (apply not_eq_sym; exact H1).
Qed.

Lemma FixUp_as_two_stores this (m : gmap Z Z) :
  FixUp this m
  = store (store m (addr_m_pMember1 this)
             ((this + m_pMember1 this m) mod U32.modulus))
      (addr_m_pMember2 this) ((this + m_pMember2 this m) mod U32.modulus).
Proof.
  unfold FixUp. rewrite !U32_add_cast. unfold m_pMember2 at 1.
  now rewrite load_store_ne by apply addr_members_distinct.
Qed.

Lemma U32_cast_mod x : U32.cast (x mod U32.modulus) = U32.cast x.
Proof. unfold U32.cast. apply Z.mod_mod. pose proof U32_modulus_pos. lia. Qed.

Lemma U32_cast_add_l x y : U32.cast (U32.cast x + y) = U32.cast (x + y).
Proof. unfold U32.cast. apply Zplus_mod_idemp_l. Qed.

Lemma U32_cast_add_r x y : U32.cast (x + U32.cast y) = U32.cast (x + y).
Proof. unfold U32.cast. apply Zplus_mod_idemp_r. Qed.

Lemma U32_cast_sub_l x y : U32.cast (U32.cast x - y) = U32.cast (x - y).
Proof. unfold U32.cast. apply Zminus_mod_idemp_l. Qed.

(** X1.  Round trip: subtracting the base address from a member that
    [FixUp] has resolved gives back, as a 32-bit word, the offset that was
    stored.  The relocation loses nothing. *)
Theorem FixUp_offset_round_trip (this : Z) (m : gmap Z Z) :
  U32.cast (m_pMember1 this (FixUp this m) - this) = U32.cast (m_pMember1 this m)
  /\ U32.cast (m_pMember2 this (FixUp this m) - this) = U32.cast (m_pMember2 this m).
Proof.
  rewrite FixUp_m_pMember1, FixUp_m_pMember2.
  fold (U32.cast (this + m_pMember1 this m)).
  fold (U32.cast (this + m_pMember2 this m)).
  rewrite !U32_cast_sub_l. split; f_equal; lia.
Qed.

Lemma FixUp_iter_lookup_other n this a (m : gmap Z Z) :
  a <> addr_m_pMember1 this -> a <> addr_m_pMember2 this ->
  Nat.iter n (FixUp this) m !! a = m !! a.
Proof.
  intros H1 H2. induction n as [| n IH]; simpl; [reflexivity |].
  now rewrite FixUp_lookup_other.
Qed.

(** X2.  Calls compose additively: after [n + 1] calls on the same object
    each member holds its stored word plus [n + 1] times the base address,
    modulo 2^32, and every other word of memory is still untouched. *)
Theorem FixUp_iterated (n : nat) (this : Z) (m : gmap Z Z) :
  m_pMember1 this (Nat.iter (S n) (FixUp this) m)
  = (m_pMember1 this m + Z.of_nat (S n) * this) mod U32.modulus
  /\ m_pMember2 this (Nat.iter (S n) (FixUp this) m)
     = (m_pMember2 this m + Z.of_nat (S n) * this) mod U32.modulus
  /\ (forall a, a <> addr_m_pMember1 this -> a <> addr_m_pMember2 this ->
        Nat.iter (S n) (FixUp this) m !! a = m !! a).
Proof.
  split; [| split].
  - induction n as [| n IH].
    + simpl Nat.iter. rewrite FixUp_m_pMember1. f_equal. lia.
    + change (Nat.iter (S (S n)) (FixUp this) m)
        with (FixUp this (Nat.iter (S n) (FixUp this) m)).
      rewrite FixUp_m_pMember1, IH.
      rewrite Zplus_mod_idemp_r. f_equal. lia.
  - induction n as [| n IH].
    + simpl Nat.iter. rewrite FixUp_m_pMember2. f_equal. lia.
    + change (Nat.iter (S (S n)) (FixUp this) m)
        with (FixUp this (Nat.iter (S n) (FixUp this) m)).
      rewrite FixUp_m_pMember2, IH.
      rewrite Zplus_mod_idemp_r. f_equal. lia.
  - intros a H1 H2. now apply FixUp_iter_lookup_other.
Qed.

(** X3.  Two objects that share no member word can be fixed up in either
    order: the resulting memory is the same. *)
Theorem FixUp_disjoint_commute (a b : Z) (m : gmap Z Z) :
  a <> b -> a <> b + 4 -> a + 4 <> b ->
  FixUp a (FixUp b m) = FixUp b (FixUp a m).
Proof.
  intros Hab Hab4 Ha4b.
  rewrite (FixUp_as_two_stores a (FixUp b m)), (FixUp_as_two_stores b (FixUp a m)).
  unfold m_pMember1, m_pMember2, load.
  rewrite !FixUp_lookup_other
    by (unfold addr_m_pMember1, addr_m_pMember2; lia).
  rewrite (FixUp_as_two_stores a m), (FixUp_as_two_stores b m).
  unfold m_pMember1, m_pMember2, load, store, addr_m_pMember1, addr_m_pMember2.
  set (va1 := (a + default 0 (m !! a)) mod U32.modulus).
  set (va2 := (a + default 0 (m !! (a + 4))) mod U32.modulus).
  set (vb1 := (b + default 0 (m !! b)) mod U32.modulus).
  set (vb2 := (b + default 0 (m !! (b + 4))) mod U32.modulus).
  apply map_eq. intros k. rewrite !lookup_insert.
  repeat case_decide; try reflexivity; lia.
Qed.

(** X4.  There is no null check.  For an object at a non-null 32-bit
    address, a member whose stored word is zero comes out holding the
    object's own address, and a member comes out null only when its stored
    word is the two's complement of the base address. *)
Theorem FixUp_null_member (this : Z) (m : gmap Z Z) :
  0 < this < U32.modulus ->
  U32.in_range (m_pMember1 this m) -> U32.in_range (m_pMember2 this m) ->
  (m_pMember1 this m = 0 -> m_pMember1 this (FixUp this m) = this)
  /\ (m_pMember2 this m = 0 -> m_pMember2 this (FixUp this m) = this)
  /\ (m_pMember1 this (FixUp this m) = 0
      <-> m_pMember1 this m = U32.modulus - this)
  /\ (m_pMember2 this (FixUp this m) = 0
      <-> m_pMember2 this m = U32.modulus - this).
Proof.
  unfold U32.in_range. intros Hthis R1 R2.
  rewrite FixUp_m_pMember1, FixUp_m_pMember2.
  assert (Hz : forall f, 0 <= f < U32.modulus ->
            ((this + f) mod U32.modulus = 0 <-> f = U32.modulus - this)).
  { intros f Hf.
    destruct (Z_lt_ge_dec (this + f) U32.modulus) as [Hlt | Hge].
    - rewrite Z.mod_small by lia. lia.
    - replace (this + f) with ((this + f - U32.modulus) + 1 * U32.modulus) by lia.
      rewrite Z.mod_add by lia. rewrite Z.mod_small by lia. lia. }
  split; [| split; [| split]].
  - intros ->. rewrite Z.add_0_r. apply Z.mod_small. lia.
  - intros ->. rewrite Z.add_0_r. apply Z.mod_small. lia.
  - now apply Hz.
  - now apply Hz.
Qed.

Lemma to_int32_cast x : U32.cast (SoupListing.to_int32 x) = U32.cast x.
Proof.
  unfold SoupListing.to_int32. cbv zeta.
  destruct (U32.cast x <? 2 ^ 31); [apply U32_cast_mod |].
  unfold U32.cast at 1.
  replace (U32.cast x - U32.modulus) with (U32.cast x + (-1) * U32.modulus) by lia.
  rewrite Z.mod_add by (pose proof U32_modulus_pos; lia).
  apply U32_cast_mod.
Qed.

Lemma to_int32_sum x y :
  U32.cast (SoupListing.to_int32 (SoupListing.to_int32 x + SoupListing.to_int32 y))
  = (y + x) mod U32.modulus.
Proof.
  rewrite to_int32_cast.
  rewrite <- U32_cast_add_l, to_int32_cast, U32_cast_add_l.
  rewrite <- U32_cast_add_r, to_int32_cast, U32_cast_add_r.
  unfold U32.cast. f_equal. lia.
Qed.

(** X5.  The C++ function does what the decompiler listing kept in the
    source file does: on every memory and for every object address, the
    unsigned 32-bit additions of [FixUp] and the signed 32-bit additions of
    the listing leave the same memory. *)
Theorem FixUp_matches_listing (this : Z) (m : gmap Z Z) :
  SoupListing.CGtPolygonSoup__FixUp this m = FixUp this m.
Proof.
  rewrite FixUp_as_two_stores.
  unfold SoupListing.CGtPolygonSoup__FixUp, SoupListing.store_int32,
    SoupListing.load_int32.
  rewrite !to_int32_sum.
  unfold m_pMember1, m_pMember2, addr_m_pMember1, addr_m_pMember2.
  rewrite load_store_ne by lia. reflexivity.
Qed.

(** X6.  Position independence: when the same two stored words are fixed
    up at two base addresses, each resolved member moves by exactly the
    distance between the bases, modulo 2^32. *)
Theorem FixUp_relocates (b b' : Z) (m m' : gmap Z Z) :
  m_pMember1 b' m' = m_pMember1 b m ->
  m_pMember2 b' m' = m_pMember2 b m ->
  m_pMember1 b' (FixUp b' m') = U32.cast (m_pMember1 b (FixUp b m) + (b' - b))
  /\ m_pMember2 b' (FixUp b' m') = U32.cast (m_pMember2 b (FixUp b m) + (b' - b)).
Proof.
  intros E1 E2. rewrite !FixUp_m_pMember1, !FixUp_m_pMember2, E1, E2.
  fold (U32.cast (b + m_pMember1 b m)). fold (U32.cast (b + m_pMember2 b m)).
  rewrite !U32_cast_add_l. unfold U32.cast. split; f_equal; lia.
Qed.

Lemma FixUp_disjoint_commute_witness :
  FixUp SoupBlob.base (FixUp MovedBlob.base (SoupBlob.image ∪ MovedBlob.image))
  = FixUp MovedBlob.base (FixUp SoupBlob.base (SoupBlob.image ∪ MovedBlob.image)).
Proof.
  apply (FixUp_disjoint_commute SoupBlob.base MovedBlob.base).
  - unfold SoupBlob.base, MovedBlob.base. lia.
  - unfold SoupBlob.base, MovedBlob.base. lia.
  - unfold SoupBlob.base, MovedBlob.base. lia.
Defined.

Lemma FixUp_null_member_witness :
  m_pMember1 SoupBlob.base (FixUp SoupBlob.base ∅) = SoupBlob.base
  /\ (m_pMember2 SoupBlob.base (FixUp SoupBlob.base SoupBlob.image) = 0
      <-> m_pMember2 SoupBlob.base SoupBlob.image = U32.modulus - SoupBlob.base).
Proof.
  assert (Hbase : 0 < SoupBlob.base < U32.modulus)
    by (unfold U32.modulus, SoupBlob.base; lia).
  split.
  - refine (proj1 (FixUp_null_member SoupBlob.base ∅ Hbase _ _) _).
    + vm_compute. split; [discriminate | reflexivity].
    + vm_compute. split; [discriminate | reflexivity].
    + reflexivity.
  - refine (proj2 (proj2 (proj2
             (FixUp_null_member SoupBlob.base SoupBlob.image Hbase _ _)))).
    + vm_compute. split; [discriminate | reflexivity].
    + vm_compute. split; [discriminate | reflexivity].
Defined.

Lemma FixUp_relocates_witness :
  m_pMember1 MovedBlob.base (FixUp MovedBlob.base MovedBlob.image)
  = U32.cast (m_pMember1 SoupBlob.base (FixUp SoupBlob.base SoupBlob.image)
              + (MovedBlob.base - SoupBlob.base))
  /\ m_pMember2 MovedBlob.base (FixUp MovedBlob.base MovedBlob.image)
     = U32.cast (m_pMember2 SoupBlob.base (FixUp SoupBlob.base SoupBlob.image)
                 + (MovedBlob.base - SoupBlob.base)).
Proof.
  apply (FixUp_relocates SoupBlob.base MovedBlob.base SoupBlob.image MovedBlob.image).
  - vm_compute. reflexivity.
  - vm_compute. reflexivity.
Defined.

End FixUpMore.

(** ** Rational comparisons *)

Section QFacts.

Lemma Qltb_true x y : Qltb x y = true <-> x < y.
Proof.
  unfold Qltb. rewrite negb_true_iff, <- not_true_iff_false, Qle_bool_iff.
  split; [apply Qnot_le_lt | apply Qlt_not_le].
Qed.

Lemma Qltb_false x y : Qltb x y = false <-> y <= x.
Proof.
  unfold Qltb. rewrite negb_false_iff, Qle_bool_iff. reflexivity.
Qed.

Lemma Qle_bool_false x y : Qle_bool x y = false <-> y < x.
Proof.
  rewrite <- not_true_iff_false, Qle_bool_iff.
  split; [apply Qnot_le_lt | apply Qlt_not_le].
Qed.

(** A point of the segment at a parameter between [0] and [b] lies, along
    every axis, between the start and the point at [b]. *)
Lemma line_coord_between l a t b k :
  0 <= t -> t <= b ->
  (k < coord a (line_start l) -> k < line_coord l a b -> k < line_coord l a t)
  /\ (coord a (line_start l) < k -> line_coord l a b < k -> line_coord l a t < k).
Proof.
  unfold line_coord. intros H0 Hb.
  set (A := coord a (line_start l)). set (D := coord a (line_end l) - A).
  destruct (Qlt_le_dec D 0) as [HD | HD].
  - assert (b * D <= t * D) by nra. assert (t * D <= 0) by nra.
    split; intros; lra.
  - assert (t * D <= b * D) by nra. assert (0 <= t * D) by nra.
    split; intros; lra.
Qed.

End QFacts.

(** ** The callback queries *)

Section CallbackFacts.

Import CGtCollisionKDTree.

Context {Polygon : Type}.
Variable sphere_polygon : CGtSphere -> Polygon -> option Contact.
Variable line_polygon : CGtLine -> Polygon -> option Contact.
Variable on_polygon : Polygon -> CGtVector -> Prop.

Lemma visit_leaf_deliver {Ctx : Type} test (soup : list Polygon) polys
    (cb : Callback Ctx) ctx :
  visit_leaf test soup polys cb ctx = deliver cb ctx (leaf_hits test soup polys).
Proof.
  revert ctx. induction polys as [| i rest IH]; intros ctx; simpl; [reflexivity |].
  destruct (polygon_result test soup i) as [r |]; simpl; [| apply IH].
  destruct (cb r ctx) as [[] ctx']; [apply IH | reflexivity].
Qed.

Lemma deliver_app {Ctx : Type} (cb : Callback Ctx) ctx xs ys :
  deliver cb ctx (xs ++ ys)
  = let '(go, ctx1) := deliver cb ctx xs in
    if go then deliver cb ctx1 ys else (false, ctx1).
Proof.
  revert ctx. induction xs as [| r rest IH]; intros ctx; simpl; [reflexivity |].
  destruct (cb r ctx) as [[] ctx']; [apply IH | reflexivity].
Qed.

Lemma visit_node_deliver {Ctx : Type} enter_lo enter_hi test
    (soup : list Polygon) n (cb : Callback Ctx) ctx :
  visit_node enter_lo enter_hi test soup n cb ctx
  = deliver cb ctx (node_hits enter_lo enter_hi test soup n).
Proof.
  revert ctx. induction n as [polys | a k lo IHlo hi IHhi]; intros ctx; simpl.
  - apply visit_leaf_deliver.
  - rewrite deliver_app.
    destruct (enter_lo a k); simpl.
    + rewrite IHlo.
      destruct (deliver cb ctx _) as [[] ctx1]; [| reflexivity].
      destruct (enter_hi a k); [apply IHhi | reflexivity].
    + destruct (enter_hi a k); [apply IHhi | reflexivity].
Qed.

Lemma deliver_logged {Ctx : Type} (cb : Callback Ctx) ctx log hits :
  deliver (logged cb) (ctx, log) hits
  = (fst (deliver cb ctx hits),
     (snd (deliver cb ctx hits), log ++ calls_of cb ctx hits)).
Proof.
  revert ctx log. induction hits as [| r rest IH]; intros ctx log; simpl.
  - now rewrite app_nil_r.
  - unfold logged at 1. simpl.
    destruct (cb r ctx) as [[] ctx']; simpl.
    + rewrite IH. now rewrite <- app_assoc.
    + reflexivity.
Qed.

Lemma IntersectSphere_calls_eq {Ctx : Type} (t : Tree Polygon) s
    (cb : Callback Ctx) ctx :
  IntersectSphere_calls sphere_polygon t s cb ctx
  = calls_of cb ctx
      (node_hits (sphere_enter_lo s) (sphere_enter_hi s) (sphere_polygon s)
         (kd_soup t) (kd_root t)).
Proof.
  unfold IntersectSphere_calls, IntersectSphere.
  now rewrite visit_node_deliver, deliver_logged.
Qed.

Lemma IntersectLine_calls_eq {Ctx : Type} (t : Tree Polygon) l
    (cb : Callback Ctx) ctx :
  IntersectLine_calls line_polygon t l cb ctx
  = calls_of cb ctx
      (node_hits (line_enter_lo l) (line_enter_hi l) (line_polygon l)
         (kd_soup t) (kd_root t)).
Proof.
  unfold IntersectLine_calls, IntersectLine.
  now rewrite visit_node_deliver, deliver_logged.
Qed.

(** The context a query returns is the one its invocations produce. *)
Lemma IntersectSphere_eq {Ctx : Type} (t : Tree Polygon) s
    (cb : Callback Ctx) ctx :
  IntersectSphere sphere_polygon t s cb ctx
  = snd (deliver cb ctx
           (node_hits (sphere_enter_lo s) (sphere_enter_hi s)
              (sphere_polygon s) (kd_soup t) (kd_root t))).
Proof. unfold IntersectSphere. now rewrite visit_node_deliver. Qed.

Lemma calls_of_stop_last {Ctx : Type} (cb : Callback Ctx) ctx hits pre r post :
  calls_of cb ctx hits = pre ++ (r, false) :: post -> post = [].
Proof.
  revert ctx pre. induction hits as [| h rest IH]; intros ctx pre; simpl.
  - intros H. now destruct pre.
  - destruct (cb h ctx) as [go ctx']. destruct pre as [| p pre']; simpl.
    + intros H. injection H as Hh Hgo Hrest. subst go. now symmetry.
    + intros H. injection H as Hp Hrest. destruct go.
      * eapply IH, Hrest.
      * now destruct pre'.
Qed.

Lemma calls_of_In {Ctx : Type} (cb : Callback Ctx) ctx hits r b :
  In (r, b) (calls_of cb ctx hits) -> In r hits.
Proof.
  revert ctx. induction hits as [| h rest IH]; intros ctx; simpl; [tauto |].
  destruct (cb h ctx) as [go ctx']. intros [H | H].
  - left. congruence.
  - right. destruct go; [eapply IH, H | destruct H].
Qed.

Lemma calls_of_continue {Ctx : Type} (cb : Callback Ctx) ctx hits :
  (forall r c, fst (cb r c) = true) ->
  calls_of cb ctx hits = map (fun r => (r, true)) hits.
Proof.
  intros Hcb. revert ctx. induction hits as [| h rest IH]; intros ctx; simpl.
  - reflexivity.
  - specialize (Hcb h ctx). destruct (cb h ctx) as [go ctx']. simpl in Hcb.
    subst go. now rewrite IH.
Qed.

Lemma calls_of_no_stop {Ctx : Type} (cb : Callback Ctx) ctx hits :
  (forall r, ~ In (r, false) (calls_of cb ctx hits)) ->
  calls_of cb ctx hits = map (fun r => (r, true)) hits.
Proof.
  revert ctx. induction hits as [| h rest IH]; intros ctx; simpl; [reflexivity |].
  destruct (cb h ctx) as [[] ctx']; intros H.
  - f_equal. apply IH. intros r Hr. apply (H r). now right.
  - exfalso. apply (H h). now left.
Qed.

Lemma calls_of_first_stop {Ctx : Type} (cb : Callback Ctx) ctx h rest :
  fst (cb h ctx) = false -> calls_of cb ctx (h :: rest) = [(h, false)].
Proof.
  simpl. destruct (cb h ctx) as [go ctx']. simpl. now intros ->.
Qed.

Lemma leaf_hits_In test (soup : list Polygon) polys r :
  In r (leaf_hits test soup polys)
  <-> exists i, In i polys /\ polygon_result test soup i = Some r.
Proof.
  induction polys as [| j rest IH]; simpl.
  - split; [tauto | intros (i & [] & _)].
  - destruct (polygon_result test soup j) as [r' |] eqn:E; simpl; rewrite ?IH.
    + split.
      * intros [-> | (i & Hi & Hr)]; [exists j | exists i]; auto.
      * intros (i & [<- | Hi] & Hr); [left; congruence | right; eauto].
    + split.
      * intros (i & Hi & Hr). eauto.
      * intros (i & [<- | Hi] & Hr); [congruence | eauto].
Qed.

Lemma polygon_result_Some test (soup : list Polygon) i r :
  polygon_result test soup i = Some r
  <-> exists c, intersects test soup i c
                /\ r = {| res_polygon := i; res_contact := c |}.
Proof.
  unfold polygon_result, intersects. split.
  - destruct (soup !! i) as [P |]; [| discriminate].
    destruct (test P) as [c |] eqn:E; [| discriminate].
    intros [= <-]. eauto.
  - intros (c & (P & -> & ->) & ->). reflexivity.
Qed.

(** Every candidate of a descent is a genuine overlap. *)
Lemma node_hits_sound enter_lo enter_hi test (soup : list Polygon) n r :
  In r (node_hits enter_lo enter_hi test soup n) ->
  exists i c, intersects test soup i c
              /\ r = {| res_polygon := i; res_contact := c |}.
Proof.
  induction n as [polys | a k lo IHlo hi IHhi]; simpl.
  - rewrite leaf_hits_In. intros (i & _ & Hr).
    apply polygon_result_Some in Hr. eauto.
  - rewrite in_app_iff. intros [H | H].
    + destruct (enter_lo a k); [auto | destruct H].
    + destruct (enter_hi a k); [auto | destruct H].
Qed.

(** A descent whose pruning tests accept the contact point reaches the
    leaves that index the polygon there. *)
Lemma node_hits_complete enter_lo enter_hi test (soup : list Polygon) n x i r :
  (forall a k, coord a x <= k -> enter_lo a k = true) ->
  (forall a k, k <= coord a x -> enter_hi a k = true) ->
  indexed_at n x i ->
  polygon_result test soup i = Some r ->
  In r (node_hits enter_lo enter_hi test soup n).
Proof.
  intros Hlo Hhi Hidx Hr. induction n as [polys | a k lo IHlo hi IHhi]; simpl.
  - apply leaf_hits_In. eauto.
  - simpl in Hidx. destruct Hidx as [Ilo Ihi]. apply in_app_iff.
    destruct (Qlt_le_dec k (coord a x)) as [Hk | Hk].
    + right. rewrite Hhi by now apply Qlt_le_weak.
      apply IHhi, Ihi. now apply Qlt_le_weak.
    + left. rewrite Hlo by exact Hk. now apply IHlo, Ilo.
Qed.

(** The pruning test of the sphere query accepts every contact point. *)
Lemma sphere_hits_complete (t : Tree Polygon) s i c :
  sphere_polygon_sound sphere_polygon on_polygon ->
  tree_indexes on_polygon t ->
  intersects (sphere_polygon s) (kd_soup t) i c ->
  In {| res_polygon := i; res_contact := c |}
     (node_hits (sphere_enter_lo s) (sphere_enter_hi s) (sphere_polygon s)
        (kd_soup t) (kd_root t)).
Proof.
  intros Hsound Htree Hi. pose proof Hi as (P & HP & Hc).
  destruct (Hsound s P c Hc) as [Hon Hbox].
  apply node_hits_complete with (x := contact_point c) (i := i).
  - intros a k Hk. unfold sphere_enter_lo.
    apply negb_true_iff, Qltb_false. destruct (Hbox a). lra.
  - intros a k Hk. unfold sphere_enter_hi.
    apply negb_true_iff, Qltb_false. destruct (Hbox a). lra.
  - eapply Htree; eassumption.
  - apply polygon_result_Some. eauto.
Qed.

(** The segment test of the line query accepts every hit point. *)
Lemma line_hits_complete (t : Tree Polygon) l i c :
  line_polygon_sound line_polygon on_polygon ->
  tree_indexes on_polygon t ->
  intersects (line_polygon l) (kd_soup t) i c ->
  In {| res_polygon := i; res_contact := c |}
     (node_hits (line_enter_lo l) (line_enter_hi l) (line_polygon l)
        (kd_soup t) (kd_root t)).
Proof.
  intros Hsound Htree Hi. pose proof Hi as (P & HP & Hc).
  destruct (Hsound l P c Hc) as (Hon & [H0 H1] & Hx).
  assert (Hend : forall a, line_coord l a 1 == coord a (line_end l))
    by (intros a; unfold line_coord; ring).
  apply node_hits_complete with (x := contact_point c) (i := i).
  - intros a k Hk. unfold line_enter_lo.
    destruct (Qle_bool (coord a (line_start l)) k) eqn:EA; [reflexivity |].
    destruct (Qle_bool (coord a (line_end l)) k) eqn:EB; [reflexivity |].
    exfalso. apply Qle_bool_false in EA. apply Qle_bool_false in EB.
    destruct (line_coord_between l a (contact_distance c) 1 k H0 H1) as [Hb _].
    specialize (Hx a). specialize (Hend a). lra.
  - intros a k Hk. unfold line_enter_hi.
    destruct (Qle_bool k (coord a (line_start l))) eqn:EA; [reflexivity |].
    destruct (Qle_bool k (coord a (line_end l))) eqn:EB; [reflexivity |].
    exfalso. apply Qle_bool_false in EA. apply Qle_bool_false in EB.
    destruct (line_coord_between l a (contact_distance c) 1 k H0 H1) as [_ Hb].
    specialize (Hx a). specialize (Hend a). lra.
  - eapply Htree; eassumption.
  - apply polygon_result_Some. eauto.
Qed.

End CallbackFacts.

(** ** The nearest-hit query *)

Section NearestFacts.

Import CGtCollisionKDTree.

Context {Polygon : Type}.
Variable line_polygon : CGtLine -> Polygon -> option Contact.
Variable on_polygon : Polygon -> CGtVector -> Prop.
Variable l : CGtLine.
Variable soup : list Polygon.

Lemma tightens_refl st : tightens line_polygon l soup st st.
Proof. split; [intros H; split; [exact H | apply Qle_refl] | now left]. Qed.

Lemma tightens_trans st1 st2 st3 :
  tightens line_polygon l soup st1 st2 -> tightens line_polygon l soup st2 st3 -> tightens line_polygon l soup st1 st3.
Proof.
  intros [M1 G1] [M2 G2]. split.
  - intros H. destruct (M1 H) as [F2 D2]. destruct (M2 F2) as [F3 D3].
    split; [exact F3 | eapply Qle_trans; eassumption].
  - destruct G2 as [-> | G2]; [exact G1 | now right].
Qed.

Lemma tightens_within st st' d : tightens line_polygon l soup st st' -> within st d -> within st' d.
Proof.
  intros [M _] [F D]. destruct (M F) as [F' D'].
  split; [exact F' | eapply Qle_trans; eassumption].
Qed.

Lemma nearest_update_tightens st r :
  genuine line_polygon l soup r -> tightens line_polygon l soup st (nearest_update st r).
Proof.
  intros Hr. unfold nearest_update.
  destruct (negb (fst st) || Qltb (res_distance r) (res_distance (snd st))) eqn:E.
  - split; [| now right]. intros F. rewrite F in E. simpl in E.
    apply Qltb_true in E. split; [reflexivity | now apply Qlt_le_weak].
  - apply tightens_refl.
Qed.

Lemma nearest_update_within st r : within (nearest_update st r) (res_distance r).
Proof.
  unfold nearest_update, within.
  destruct (negb (fst st) || Qltb (res_distance r) (res_distance (snd st))) eqn:E.
  - split; [reflexivity | apply Qle_refl].
  - apply orb_false_iff in E as [F D].
    apply negb_false_iff in F. apply Qltb_false in D. now split.
Qed.

Lemma polygon_result_genuine i r :
  polygon_result (line_polygon l) soup i = Some r -> genuine line_polygon l soup r.
Proof.
  intros H. apply polygon_result_Some in H as (c & Hc & ->). exact Hc.
Qed.

Lemma nearest_leaf_tightens polys st :
  tightens line_polygon l soup st (nearest_leaf line_polygon l soup polys st).
Proof.
  revert st. induction polys as [| i rest IH]; intros st; simpl.
  - apply tightens_refl.
  - eapply tightens_trans; [| apply IH].
    destruct (polygon_result (line_polygon l) soup i) as [r |] eqn:E.
    + apply nearest_update_tightens. eapply polygon_result_genuine, E.
    + apply tightens_refl.
Qed.

Lemma nearest_leaf_within polys st i r :
  In i polys -> polygon_result (line_polygon l) soup i = Some r ->
  within (nearest_leaf line_polygon l soup polys st) (res_distance r).
Proof.
  revert st. induction polys as [| j rest IH]; intros st; simpl; [tauto |].
  intros [-> | Hi] Hr.
  - rewrite Hr. eapply tightens_within; [apply nearest_leaf_tightens |].
    apply nearest_update_within.
  - now apply IH.
Qed.

Lemma nearest_node_tightens n st :
  tightens line_polygon l soup st (nearest_node line_polygon l soup n st).
Proof.
  revert st. induction n as [polys | a k lo IHlo hi IHhi]; intros st; simpl.
  - apply nearest_leaf_tightens.
  - destruct (Qle_bool (coord a (line_start l)) k).
    + eapply tightens_trans with (st2 := if nearest_enter_lo l st a k then _ else st).
      * destruct (nearest_enter_lo l st a k); [apply IHlo | apply tightens_refl].
      * destruct (nearest_enter_hi l _ a k); [apply IHhi | apply tightens_refl].
    + eapply tightens_trans with (st2 := if nearest_enter_hi l st a k then _ else st).
      * destruct (nearest_enter_hi l st a k); [apply IHhi | apply tightens_refl].
      * destruct (nearest_enter_lo l _ a k); [apply IHlo | apply tightens_refl].
Qed.

(** A pruned half-space holds no hit that would improve the best one. *)
Lemma pruned_lo_within st a k t :
  0 <= t <= 1 -> line_coord l a t <= k ->
  nearest_enter_lo l st a k = false -> within st t.
Proof.
  intros [H0 H1] Hx E. unfold nearest_enter_lo in E.
  apply orb_false_iff in E as [EA EB].
  apply Qle_bool_false in EA. apply Qle_bool_false in EB.
  destruct (Qlt_le_dec t (nearest_limit st)) as [Hlt | Hle].
  - exfalso. apply Qlt_le_weak in Hlt.
    destruct (line_coord_between l a t (nearest_limit st) k H0 Hlt) as [Hb _].
    specialize (Hb EA EB). lra.
  - unfold nearest_limit in *. unfold within.
    destruct (fst st).
    + now split.
    + exfalso.
      destruct (line_coord_between l a t 1 k H0 H1) as [Hb _].
      assert (Ht : t == 1) by lra.
      specialize (Hb EA EB). lra.
Qed.

Lemma pruned_hi_within st a k t :
  0 <= t <= 1 -> k <= line_coord l a t ->
  nearest_enter_hi l st a k = false -> within st t.
Proof.
  intros [H0 H1] Hx E. unfold nearest_enter_hi in E.
  apply orb_false_iff in E as [EA EB].
  apply Qle_bool_false in EA. apply Qle_bool_false in EB.
  destruct (Qlt_le_dec t (nearest_limit st)) as [Hlt | Hle].
  - exfalso. apply Qlt_le_weak in Hlt.
    destruct (line_coord_between l a t (nearest_limit st) k H0 Hlt) as [_ Hb].
    specialize (Hb EA EB). lra.
  - unfold nearest_limit in *. unfold within.
    destruct (fst st).
    + now split.
    + exfalso.
      destruct (line_coord_between l a t 1 k H0 H1) as [_ Hb].
      specialize (Hb EA EB). lra.
Qed.

Hypothesis Hsound : line_polygon_sound line_polygon on_polygon.

(** The search ends at least as close as every hit indexed below the node
    it searched. *)
Lemma nearest_node_within n st i c :
  intersects (line_polygon l) soup i c ->
  indexed_at n (contact_point c) i ->
  within (nearest_node line_polygon l soup n st) (contact_distance c).
Proof.
  intros Hi. pose proof Hi as (P & HP & Hc).
  destruct (Hsound l P c Hc) as (_ & Ht & Hx).
  assert (Hr : polygon_result (line_polygon l) soup i
               = Some {| res_polygon := i; res_contact := c |}).
  { apply polygon_result_Some. eauto. }
  revert st. induction n as [polys | a k lo IHlo hi IHhi]; intros st Hidx; simpl.
  - apply (nearest_leaf_within polys st i _ Hidx Hr).
  - simpl in Hidx. destruct Hidx as [Ilo Ihi]. specialize (Hx a).
    assert (Glo : forall st0, coord a (contact_point c) <= k ->
              within (if nearest_enter_lo l st0 a k
                      then nearest_node line_polygon l soup lo st0 else st0)
                     (contact_distance c)).
    { intros st0 Hk. destruct (nearest_enter_lo l st0 a k) eqn:E.
      - apply IHlo, Ilo, Hk.
      - apply (pruned_lo_within st0 a k _ Ht); [lra | exact E]. }
    assert (Ghi : forall st0, k <= coord a (contact_point c) ->
              within (if nearest_enter_hi l st0 a k
                      then nearest_node line_polygon l soup hi st0 else st0)
                     (contact_distance c)).
    { intros st0 Hk. destruct (nearest_enter_hi l st0 a k) eqn:E.
      - apply IHhi, Ihi, Hk.
      - apply (pruned_hi_within st0 a k _ Ht); [lra | exact E]. }
    assert (Tlo : forall st0,
              tightens line_polygon l soup st0 (if nearest_enter_lo l st0 a k
                            then nearest_node line_polygon l soup lo st0 else st0)).
    { intros st0. destruct (nearest_enter_lo l st0 a k);
        [apply nearest_node_tightens | apply tightens_refl]. }
    assert (Thi : forall st0,
              tightens line_polygon l soup st0 (if nearest_enter_hi l st0 a k
                            then nearest_node line_polygon l soup hi st0 else st0)).
    { intros st0. destruct (nearest_enter_hi l st0 a k);
        [apply nearest_node_tightens | apply tightens_refl]. }
    destruct (Qlt_le_dec k (coord a (contact_point c))) as [Hk | Hk];
      destruct (Qle_bool (coord a (line_start l)) k).
    + apply Ghi. now apply Qlt_le_weak.
    + eapply tightens_within; [apply Tlo |]. apply Ghi. now apply Qlt_le_weak.
    + eapply tightens_within; [apply Thi |]. now apply Glo.
    + now apply Glo.
Qed.

End NearestFacts.

(** ** The flat-quad geometry *)

Section FlatQuadFacts.

Import CGtCollisionKDTree FlatQuad.

Lemma clamp_between lo hi v : lo <= hi -> lo <= clamp lo hi v /\ clamp lo hi v <= hi.
Proof.
  intros H. unfold clamp.
  destruct (Qle_bool v lo) eqn:E1; [split; [apply Qle_refl | exact H] |].
  destruct (Qle_bool hi v) eqn:E2; [split; [exact H | apply Qle_refl] |].
  apply Qle_bool_false in E1. apply Qle_bool_false in E2.
  split; now apply Qlt_le_weak.
Qed.

Lemma quad_valid_true q :
  quad_valid q = true -> quad_x0 q <= quad_x1 q /\ quad_y0 q <= quad_y1 q.
Proof.
  unfold quad_valid. rewrite andb_true_iff, !Qle_bool_iff. tauto.
Qed.

Lemma sphere_quad_sound : sphere_polygon_sound sphere_quad on_quad.
Proof.
  intros s q c. unfold sphere_quad.
  destruct (quad_valid q && Qle_bool 0 (sphere_radius s)) eqn:V; [| discriminate].
  apply andb_true_iff in V as [V R].
  apply quad_valid_true in V as [Vx Vy]. apply Qle_bool_iff in R.
  match goal with |- context [Qle_bool ?d ?r2] => destruct (Qle_bool d r2) eqn:D end;
    [| discriminate].
  apply Qle_bool_iff in D. intros [= <-]. simpl in *.
  pose proof (clamp_between _ _ (vx (sphere_center s)) Vx) as Cx.
  pose proof (clamp_between _ _ (vy (sphere_center s)) Vy) as Cy.
  split.
  - unfold on_quad. simpl. split; [tauto | split; [tauto | reflexivity]].
  - unfold sqr in D.
    set (dx := clamp (quad_x0 q) (quad_x1 q) (vx (sphere_center s))
               - vx (sphere_center s)) in *.
    set (dy := clamp (quad_y0 q) (quad_y1 q) (vy (sphere_center s))
               - vy (sphere_center s)) in *.
    set (dz := quad_z q - vz (sphere_center s)) in *.
    set (r := sphere_radius s) in *.
    assert (Sx : 0 <= dx * dx) by nra.
    assert (Sy : 0 <= dy * dy) by nra.
    assert (Sz : 0 <= dz * dz) by nra.
    assert (Bx : - r <= dx /\ dx <= r) by (split; nra).
    assert (By : - r <= dy /\ dy <= r) by (split; nra).
    assert (Bz : - r <= dz /\ dz <= r) by (split; nra).
    intros [| |]; simpl; subst dx dy dz r; split; lra.
Qed.

Lemma line_quad_sound : line_polygon_sound line_quad on_quad.
Proof.
  intros l q c. unfold line_quad.
  set (dz := vz (line_end l) - vz (line_start l)).
  destruct (quad_valid q && negb (Qeq_bool dz 0)) eqn:V; [| discriminate].
  apply andb_true_iff in V as [_ Z]. apply negb_true_iff in Z.
  apply Qeq_bool_neq in Z.
  set (t := (quad_z q - vz (line_start l)) / dz).
  match goal with |- context [if ?b then _ else _] => destruct b eqn:B end;
    [| discriminate].
  repeat (apply andb_true_iff in B as [B ?]).
  repeat match goal with H : Qle_bool _ _ = true |- _ => apply Qle_bool_iff in H end.
  intros [= <-]. simpl in *.
  split; [| split].
  - unfold on_quad. simpl. repeat split; try assumption.
    unfold line_coord. simpl. fold dz. unfold t. field. exact Z.
  - split; assumption.
  - intros [| |]; simpl; reflexivity.
Qed.

Lemma two_quads_indexed : tree_indexes on_quad two_quads.
Proof.
  intros i P x HP (_ & _ & Hz). simpl.
  destruct i as [| [| i]]; simpl in HP; try discriminate;
    injection HP as <-; simpl in Hz; split; intros Hk; simpl; try tauto; lra.
Qed.



Lemma leaf_of_indexed polys :
  In 0%nat polys -> In 1%nat polys -> In 2%nat polys ->
  tree_indexes on_quad (leaf_of polys).
Proof.
  intros H0 H1 H2 i P x HP _. simpl.
  destruct i as [| [| [| i]]]; simpl in HP; try discriminate; assumption.
Qed.

End FlatQuadFacts.

(** ** The queries of the tree *)

Section KDTreeClaims.

Import CGtCollisionKDTree.

Context {Polygon : Type}.
Variable sphere_polygon : CGtSphere -> Polygon -> option Contact.
Variable line_polygon : CGtLine -> Polygon -> option Contact.
Variable on_polygon : Polygon -> CGtVector -> Prop.

Lemma node_hits_none enter_lo enter_hi test (soup : list Polygon) n :
  (forall i c, ~ intersects test soup i c) ->
  node_hits enter_lo enter_hi test soup n = [].
Proof.
  intros Hnone.
  destruct (node_hits enter_lo enter_hi test soup n) as [| r rest] eqn:E;
    [reflexivity | exfalso].
  destruct (node_hits_sound enter_lo enter_hi test soup n r) as (i & c & Hi & _).
  - rewrite E. now left.
  - exact (Hnone i c Hi).
Qed.

Lemma nearest_found_genuine (t : Tree Polygon) l out :
  fst (IntersectLineNearest line_polygon t l out) = true ->
  genuine line_polygon l (kd_soup t) (snd (IntersectLineNearest line_polygon t l out)).
Proof.
  unfold IntersectLineNearest. intros F.
  destruct (nearest_node_tightens line_polygon l (kd_soup t) (kd_root t) (false, out))
    as [_ [E | [_ G]]]; [| exact G].
  rewrite E in F. discriminate.
Qed.

Lemma nearest_within_hit (t : Tree Polygon) l out i c :
  line_polygon_sound line_polygon on_polygon ->
  tree_indexes on_polygon t ->
  intersects (line_polygon l) (kd_soup t) i c ->
  within (IntersectLineNearest line_polygon t l out) (contact_distance c).
Proof.
  intros Hsound Htree Hi. unfold IntersectLineNearest.
  apply (nearest_node_within line_polygon on_polygon l (kd_soup t) Hsound _ _ i c);
    [exact Hi |].
  destruct Hi as (P & HP & Hc).
  apply (Htree i P _ HP). now destruct (Hsound l P c Hc).
Qed.

(** C2 (as amended).  In a tree that indexes its soup, a sphere query
    during which the callback never answers stop reports every polygon
    that the sphere overlaps, and likewise a line query every polygon that
    the segment hits: no false negatives. *)
Theorem coverage_unless_stopped {Ctx : Type} (t : Tree Polygon)
    (s : CGtSphere) (l : CGtLine) (cb : Callback Ctx) (ctx : Ctx)
    (i j : nat) (c h : Contact) :
  sphere_polygon_sound sphere_polygon on_polygon ->
  line_polygon_sound line_polygon on_polygon ->
  tree_indexes on_polygon t ->
  ((forall r, ~ In (r, false) (IntersectSphere_calls sphere_polygon t s cb ctx)) ->
   intersects (sphere_polygon s) (kd_soup t) i c ->
   In ({| res_polygon := i; res_contact := c |}, true)
      (IntersectSphere_calls sphere_polygon t s cb ctx))
  /\ ((forall r, ~ In (r, false) (IntersectLine_calls line_polygon t l cb ctx)) ->
      intersects (line_polygon l) (kd_soup t) j h ->
      In ({| res_polygon := j; res_contact := h |}, true)
         (IntersectLine_calls line_polygon t l cb ctx)).
Proof.
  intros Hs Hl Htree. split.
  - rewrite IntersectSphere_calls_eq. intros Hgo Hi.
    rewrite calls_of_no_stop by exact Hgo.
    apply (in_map (fun r => (r, true))).
    now apply (sphere_hits_complete sphere_polygon on_polygon).
  - rewrite IntersectLine_calls_eq. intros Hgo Hi.
    rewrite calls_of_no_stop by exact Hgo.
    apply (in_map (fun r => (r, true))).
    now apply (line_hits_complete line_polygon on_polygon).
Qed.


(** C4 (as amended).  In a tree that indexes its soup, when some polygon
    is hit by the segment, [IntersectLineNearest] answers found and the
    distance it returns is no greater than the distance of any result that
    [IntersectLine] reports for the same segment, whatever the callback
    does.  It is the minimum of the reported distances, being the distance
    of one of the reported results, provided the callback of
    [IntersectLine] never answers stop during that query. *)
Theorem nearest_is_minimum_of_reported {Ctx : Type} (t : Tree Polygon)
    (l : CGtLine) (out : CGtPolygonIntersectionResult)
    (cb : Callback Ctx) (ctx : Ctx) (i : nat) (c : Contact) :
  line_polygon_sound line_polygon on_polygon ->
  tree_indexes on_polygon t ->
  intersects (line_polygon l) (kd_soup t) i c ->
  let near := IntersectLineNearest line_polygon t l out in
  fst near = true
  /\ (forall r b, In (r, b) (IntersectLine_calls line_polygon t l cb ctx) ->
        res_distance (snd near) <= res_distance r)
  /\ ((forall r, ~ In (r, false) (IntersectLine_calls line_polygon t l cb ctx)) ->
      In (snd near, true) (IntersectLine_calls line_polygon t l cb ctx)).
Proof.
  intros Hsound Htree Hi near.
  destruct (nearest_within_hit t l out i c Hsound Htree Hi) as [F _].
  fold near in F. split; [exact F | split].
  - intros r b. rewrite IntersectLine_calls_eq. intros H.
    apply calls_of_In, node_hits_sound in H as (j & d & Hj & ->).
    now destruct (nearest_within_hit t l out j d Hsound Htree Hj).
  - intros Hgo.
    pose proof (nearest_found_genuine t l out F) as G. fold near in G.
    unfold genuine in G.
    rewrite IntersectLine_calls_eq in Hgo |- *.
    rewrite calls_of_no_stop by exact Hgo.
    apply (in_map (fun r => (r, true))).
    pose proof (line_hits_complete line_polygon on_polygon t l _ _ Hsound Htree G) as H.
    now destruct (snd near).
Qed.

(** C5.  Early termination: in a sphere or a line query, an invocation of
    the callback that answers stop is the last one.  In particular, with a
    callback that answers stop to the first result it is given, a query
    whose shape intersects one or several polygons invokes the callback
    exactly once. *)
Theorem stop_ends_the_query {Ctx : Type} (t : Tree Polygon)
    (s : CGtSphere) (l : CGtLine) (cb : Callback Ctx) (ctx : Ctx) :
  (forall pre r post,
     IntersectSphere_calls sphere_polygon t s cb ctx = pre ++ (r, false) :: post ->
     post = [])
  /\ (forall pre r post,
        IntersectLine_calls line_polygon t l cb ctx = pre ++ (r, false) :: post ->
        post = [])
  /\ ((forall r, fst (cb r ctx) = false) ->
      tree_indexes on_polygon t ->
      (sphere_polygon_sound sphere_polygon on_polygon ->
       forall i c, intersects (sphere_polygon s) (kd_soup t) i c ->
         exists r, IntersectSphere_calls sphere_polygon t s cb ctx = [(r, false)])
      /\ (line_polygon_sound line_polygon on_polygon ->
          forall i c, intersects (line_polygon l) (kd_soup t) i c ->
            exists r, IntersectLine_calls line_polygon t l cb ctx = [(r, false)])).
Proof.
  split; [| split].
  - intros pre r post. rewrite IntersectSphere_calls_eq. apply calls_of_stop_last.
  - intros pre r post. rewrite IntersectLine_calls_eq. apply calls_of_stop_last.
  - intros Hstop Htree. split; intros Hsound i c Hi.
    + rewrite IntersectSphere_calls_eq.
      pose proof (sphere_hits_complete sphere_polygon on_polygon t s i c Hsound Htree Hi) as H.
      destruct (node_hits _ _ _ _ _) as [| r rest]; [destruct H |].
      exists r. apply calls_of_first_stop, Hstop.
    + rewrite IntersectLine_calls_eq.
      pose proof (line_hits_complete line_polygon on_polygon t l i c Hsound Htree Hi) as H.
      destruct (node_hits _ _ _ _ _) as [| r rest]; [destruct H |].
      exists r. apply calls_of_first_stop, Hstop.
Qed.

(** C6.  In a tree that indexes its soup, [IntersectLineNearest] answers
    found exactly when some polygon is hit by the segment; the output slot
    then holds a hit of the segment (polygon, point, normal, distance) that
    is at least as close as every other hit.  When no polygon is hit it
    answers not found: a miss is an ordinary outcome.  Likewise a callback
    query whose shape intersects no polygon makes no invocation, while a
    line query whose segment hits a polygon makes at least one. *)
Theorem nearest_found_iff_hit {Ctx : Type} (t : Tree Polygon)
    (s : CGtSphere) (l : CGtLine) (out : CGtPolygonIntersectionResult)
    (cb : Callback Ctx) (ctx : Ctx) :
  line_polygon_sound line_polygon on_polygon ->
  tree_indexes on_polygon t ->
  let near := IntersectLineNearest line_polygon t l out in
  (fst near = true <-> exists i c, intersects (line_polygon l) (kd_soup t) i c)
  /\ (fst near = true ->
      intersects (line_polygon l) (kd_soup t)
        (res_polygon (snd near)) (res_contact (snd near))
      /\ forall i c, intersects (line_polygon l) (kd_soup t) i c ->
           res_distance (snd near) <= contact_distance c)
  /\ ((forall i c, ~ intersects (line_polygon l) (kd_soup t) i c) ->
      fst near = false /\ IntersectLine_calls line_polygon t l cb ctx = [])
  /\ ((forall i c, ~ intersects (sphere_polygon s) (kd_soup t) i c) ->
      IntersectSphere_calls sphere_polygon t s cb ctx = [])
  /\ (forall i c, intersects (line_polygon l) (kd_soup t) i c ->
        IntersectLine_calls line_polygon t l cb ctx <> []).
Proof.
  intros Hsound Htree near.
  assert (Hfound : fst near = true ->
            intersects (line_polygon l) (kd_soup t)
              (res_polygon (snd near)) (res_contact (snd near)))
    by apply nearest_found_genuine.
  split; [| split; [| split; [| split]]].
  - split.
    + intros F. eauto.
    + intros (i & c & Hi).
      now destruct (nearest_within_hit t l out i c Hsound Htree Hi).
  - intros F. split; [now apply Hfound |].
    intros i c Hi.
    now destruct (nearest_within_hit t l out i c Hsound Htree Hi).
  - intros Hnone. split.
    + destruct (fst near) eqn:F; [| reflexivity].
      exfalso. eapply Hnone, Hfound. reflexivity.
    + rewrite IntersectLine_calls_eq, node_hits_none by exact Hnone. reflexivity.
  - intros Hnone.
    rewrite IntersectSphere_calls_eq, node_hits_none by exact Hnone. reflexivity.
  - intros i c Hi. rewrite IntersectLine_calls_eq.
    pose proof (line_hits_complete line_polygon on_polygon t l i c Hsound Htree Hi) as H.
    destruct (node_hits _ _ _ _ _) as [| r rest]; [destruct H |].
    simpl. destruct (cb r ctx). discriminate.
Qed.

End KDTreeClaims.

(** ** The queries on the two-quad tree *)

Section Scenario.

Import CGtCollisionKDTree FlatQuad.

Lemma count_all_never_stops (t : Tree Quad) s l :
  (forall r, ~ In (r, false) (IntersectSphere_calls sphere_quad t s count_all 0%nat))
  /\ (forall r, ~ In (r, false) (IntersectLine_calls line_quad t l count_all 0%nat)).
Proof.
  split; intros r H.
  - rewrite IntersectSphere_calls_eq, calls_of_continue in H by reflexivity.
    apply in_map_iff in H as (x & [=] & _).
  - rewrite IntersectLine_calls_eq, calls_of_continue in H by reflexivity.
    apply in_map_iff in H as (x & [=] & _).
Qed.

Lemma high_line_hits_nothing i c :
  ~ intersects (line_quad high_line) (kd_soup two_quads) i c.
Proof.
  intros (P & HP & Hc).
  destruct i as [| [| i]]; simpl in HP; try discriminate;
    injection HP as <-; vm_compute in Hc; discriminate.
Qed.

Lemma far_sphere_hits_nothing i c :
  ~ intersects (sphere_quad far_sphere) (kd_soup two_quads) i c.
Proof.
  intros (P & HP & Hc).
  destruct i as [| [| i]]; simpl in HP; try discriminate;
    injection HP as <-; vm_compute in Hc; discriminate.
Qed.

(** The scenario of the design document: the sphere touches the quad and
    the callback is invoked once, with the quad's index; the segment hits
    the quad half-way with a normal along [+z]; the sphere and the segment
    that stay away from the quad report nothing. *)
Example scenario_sphere_hit :
  map (fun cl => res_polygon (fst cl))
    (IntersectSphere_calls sphere_quad one_quad unit_sphere count_all 0%nat)
  = [0%nat]
  /\ IntersectSphere sphere_quad one_quad unit_sphere count_all 0%nat = 1%nat.
Proof. split; vm_compute; reflexivity. Qed.

Example scenario_line_nearest :
  let near := IntersectLineNearest line_quad one_quad down_line empty_slot in
  fst near = true
  /\ res_polygon (snd near) = 0%nat
  /\ res_distance (snd near) == 1 # 2
  /\ contact_normal (res_contact (snd near)) = {| vx := 0; vy := 0; vz := 1 |}.
Proof. repeat split; vm_compute; reflexivity. Qed.

Example scenario_miss :
  IntersectSphere_calls sphere_quad one_quad far_sphere count_all 0%nat = []
  /\ fst (IntersectLineNearest line_quad one_quad high_line empty_slot) = false.
Proof. split; vm_compute; reflexivity. Qed.

(** With a callback that stops at once, the sphere that overlaps both
    quads is reported the lower quad only: the upper quad, polygon [0],
    overlaps the sphere and is never handed to the callback. *)
Lemma coverage_fails_when_stopped :
  tree_indexes on_quad two_quads
  /\ (exists c, intersects (sphere_quad big_sphere) (kd_soup two_quads) 0 c)
  /\ (forall c b,
        ~ In ({| res_polygon := 0; res_contact := c |}, b)
             (IntersectSphere_calls sphere_quad two_quads big_sphere
                stop_at_once 0%nat)).
Proof.
  split; [exact two_quads_indexed |]. split.
  - eexists. exists quad_top. split; reflexivity.
  - intros c b H. vm_compute in H. destruct H as [H | []]. discriminate H.
Qed.

(** Whatever the order in which a leaf lists the three quads, there is a
    segment through all three for which [IntersectLine], with a callback
    that stops at once, reports a single polygon that lies strictly
    farther than the hit [IntersectLineNearest] returns: the minimum of the
    reported distances is then not the nearest distance.  The tree is a
    single leaf, so no order of visiting children is involved. *)
Lemma nearest_differs_when_stopped :
  Forall (fun polys =>
    tree_indexes on_quad (leaf_of polys)
    /\ exists l r,
         (exists i c, intersects (line_quad l) (kd_soup (leaf_of polys)) i c)
         /\ IntersectLine_calls line_quad (leaf_of polys) l stop_at_once 0%nat
            = [(r, false)]
         /\ res_distance
              (snd (IntersectLineNearest line_quad (leaf_of polys) l empty_slot))
            < res_distance r)
    leaf_orders.
Proof.
  unfold leaf_orders.
  repeat (constructor;
    [ split;
      [ apply leaf_of_indexed; simpl; tauto
      | first
          [ solve [ exists down_line; eexists; split;
                    [ exists 0%nat; eexists; exists quad_top; split; reflexivity
                    | split; vm_compute; reflexivity ] ]
          | solve [ exists up_line; eexists; split;
                    [ exists 0%nat; eexists; exists quad_top; split; reflexivity
                    | split; vm_compute; reflexivity ] ] ] ]
    | ]).
  constructor.
Qed.

Lemma coverage_unless_stopped_witness :
  (exists c, In ({| res_polygon := 0; res_contact := c |}, true)
               (IntersectSphere_calls sphere_quad two_quads big_sphere
                  count_all 0%nat))
  /\ (exists h, In ({| res_polygon := 1; res_contact := h |}, true)
                  (IntersectLine_calls line_quad two_quads down_line
                     count_all 0%nat)).
Proof.
  destruct (count_all_never_stops two_quads big_sphere down_line) as [Ns Nl].
  split; eexists.
  - refine (proj1 (coverage_unless_stopped sphere_quad line_quad on_quad
                     two_quads big_sphere down_line count_all 0%nat 0%nat 1%nat
                     _ (res_contact empty_slot)
                     sphere_quad_sound line_quad_sound two_quads_indexed) Ns _).
    exists quad_top. split; reflexivity.
  - refine (proj2 (coverage_unless_stopped sphere_quad line_quad on_quad
                     two_quads big_sphere down_line count_all 0%nat 0%nat 1%nat
                     (res_contact empty_slot) _
                     sphere_quad_sound line_quad_sound two_quads_indexed) Nl _).
    exists quad_low. split; reflexivity.
Defined.


Lemma nearest_is_minimum_of_reported_witness :
  let near := IntersectLineNearest line_quad two_quads down_line empty_slot in
  fst near = true
  /\ (forall r b,
        In (r, b) (IntersectLine_calls line_quad two_quads down_line
                     stop_at_once 0%nat) ->
        res_distance (snd near) <= res_distance r)
  /\ In (snd near, true)
        (IntersectLine_calls line_quad two_quads down_line count_all 0%nat).
Proof.
  destruct (count_all_never_stops two_quads big_sphere down_line) as [_ Nl].
  assert (Hi : intersects (line_quad down_line) (kd_soup two_quads) 1
                 (res_contact
                    (fst (hd (empty_slot, true)
                            (IntersectLine_calls line_quad two_quads down_line
                               stop_at_once 0%nat)))))
    by (exists quad_low; split; reflexivity).
  pose proof (nearest_is_minimum_of_reported line_quad on_quad two_quads down_line
                empty_slot stop_at_once 0%nat 1%nat _
                line_quad_sound two_quads_indexed Hi) as (F & Hle & _).
  pose proof (nearest_is_minimum_of_reported line_quad on_quad two_quads down_line
                empty_slot count_all 0%nat 1%nat _
                line_quad_sound two_quads_indexed Hi) as (_ & _ & Hin).
  split; [exact F | split; [exact Hle | exact (Hin Nl)]].
Defined.

Lemma stop_ends_the_query_witness :
  (exists r, IntersectSphere_calls sphere_quad two_quads big_sphere
               stop_at_once 0%nat = [(r, false)])
  /\ (exists r, IntersectLine_calls line_quad two_quads down_line
                  stop_at_once 0%nat = [(r, false)]).
Proof.
  destruct (stop_ends_the_query sphere_quad line_quad on_quad two_quads
              big_sphere down_line stop_at_once 0%nat) as (_ & _ & H).
  destruct H as [Hs Hl]; [reflexivity | exact two_quads_indexed |].
  split.
  - eapply (Hs sphere_quad_sound 0%nat). exists quad_top. split; reflexivity.
  - eapply (Hl line_quad_sound 0%nat). exists quad_top. split; reflexivity.
Defined.

Lemma nearest_found_iff_hit_witness :
  fst (IntersectLineNearest line_quad two_quads down_line empty_slot) = true
  /\ fst (IntersectLineNearest line_quad two_quads high_line empty_slot) = false
  /\ IntersectLine_calls line_quad two_quads high_line count_all 0%nat = []
  /\ IntersectSphere_calls sphere_quad two_quads far_sphere count_all 0%nat = [].
Proof.
  pose proof (nearest_found_iff_hit sphere_quad line_quad on_quad two_quads
                far_sphere down_line empty_slot count_all 0%nat
                line_quad_sound two_quads_indexed) as Hdown.
  pose proof (nearest_found_iff_hit sphere_quad line_quad on_quad two_quads
                far_sphere high_line empty_slot count_all 0%nat
                line_quad_sound two_quads_indexed) as Hhigh.
  simpl in Hdown, Hhigh.
  destruct Hdown as ([_ Fd] & _).
  destruct Hhigh as (_ & _ & Mh & Ms & _).
  split; [| split; [| split]].
  - apply Fd. exists 0%nat. eexists. exists quad_top. split; reflexivity.
  - apply Mh, high_line_hits_nothing.
  - apply Mh, high_line_hits_nothing.
  - apply Ms, far_sphere_hits_nothing.
Defined.

End Scenario.
